(** * external_lib/dylib.c: the exported function [dyloading_add]

    The library exports one C function,

<<
    int32_t dyloading_add(int32_t a, int32_t b, char *result)
    {
        printf("[External dyloading] Hello %s\n", result);
        int32_t sum = a + b;
        sprintf(result,"[External dyloading] The result (%d + %d) is %d!", a, b, sum);
        return sum;
    }
>>

    It is embedded here as a function on an explicit process state: the
    bytes written to standard output so far, a memory of byte blocks in
    which [result] points, and the rest of the process state, which the
    function never mentions.  A call whose behaviour C leaves undefined
    (reading a label that is not NUL-terminated inside its block, writing
    past the end of the block) has no result: the function returns [None]. *)

From Stdlib Require Import ZArith Lia List Strings.Byte Strings.String.
From stdpp Require Import base option list gmap.

(** ** 32-bit signed integers

    [int32_t] values are integers of [Z] between [min_signed] and
    [max_signed].  The addition [a + b] of the source is the addition of
    the two's-complement targets the file is built for (MSBuild on Windows,
    gcc on Linux): the sum is taken modulo [2^32] and read back as a signed
    value, as CompCert's [Int.add] does. *)
Module Int32.
Local Open Scope Z_scope.

Definition wordsize : Z := 32.
Definition modulus : Z := 2 ^ wordsize.
Definition half_modulus : Z := 2 ^ (wordsize - 1).
Definition min_signed : Z := - half_modulus.
Definition max_signed : Z := half_modulus - 1.

Definition in_range (z : Z) : Prop := min_signed <= z <= max_signed.

Definition in_rangeb (z : Z) : bool := (min_signed <=? z) && (z <=? max_signed).

(** The signed reading of the low 32 bits of [z]. *)
Definition signed (z : Z) : Z :=
  let u := z mod modulus in
  if u <? half_modulus then u else u - modulus.

Definition add (a b : Z) : Z := signed (a + b).
End Int32.

(** ** Characters *)

Definition NUL : byte := x00.
Definition newline : byte := x0a.
Definition minus_sign : byte := x2d.
Definition percent : byte := x25.

Definition lit (s : string) : list byte := list_byte_of_string s.

#[global] Instance byte_eq_decision : EqDecision byte := byte_eq_dec.

(** ** The [%d] conversion

    The digits of a non-negative number are produced from the least
    significant one, by division by ten, until the quotient is zero.  The
    loop is bounded by the binary length of the number, which is never
    less than its decimal length. *)
Definition digit_char (d : Z) : byte :=
  match d with
  | 0%Z => x30 | 1%Z => x31 | 2%Z => x32 | 3%Z => x33 | 4%Z => x34
  | 5%Z => x35 | 6%Z => x36 | 7%Z => x37 | 8%Z => x38 | _ => x39
  end.

Fixpoint utoa (fuel : nat) (n : Z) (acc : list byte) : list byte :=
  let acc' := digit_char (n mod 10) :: acc in
  match fuel with
  | O => acc'
  | S fuel' => if (n / 10 =? 0)%Z then acc' else utoa fuel' (n / 10) acc'
  end.

Definition format_u (n : Z) : list byte := utoa (Z.to_nat (Z.log2 n)) n [].

Definition format_d (z : Z) : list byte :=
  if (z <? 0)%Z then minus_sign :: format_u (- z) else format_u z.

(** ** Memory and pointers

    A memory is a finite map from block identifiers to blocks of bytes; the
    length of a block is its capacity.  A pointer is a block and an offset
    in it. *)
Record ptr := Ptr { ptr_block : nat; ptr_ofs : nat }.

Abbreviation memory := (gmap nat (list byte)).

Definition ptr_add (p : ptr) (i : nat) : ptr :=
  {| ptr_block := ptr_block p; ptr_ofs := ptr_ofs p + i |}.

Definition load_byte (m : memory) (p : ptr) : option byte :=
  blk ← m !! ptr_block p; blk !! ptr_ofs p.

(** The string that starts at the head of [l]: the bytes before the first
    NUL.  There is none when [l] holds no NUL. *)
Fixpoint cstr (l : list byte) : option (list byte) :=
  match l with
  | [] => None
  | c :: l' => if Byte.eqb c NUL then Some [] else (c ::.) <$> cstr l'
  end.

Definition load_cstring (m : memory) (p : ptr) : option (list byte) :=
  blk ← m !! ptr_block p; cstr (drop (ptr_ofs p) blk).

(** The block [blk] with [bs] written over it from offset [i] on. *)
Definition overwrite (blk : list byte) (i : nat) (bs : list byte) : list byte :=
  take i blk ++ bs ++ drop (i + length bs) blk.

(** Writing [bs] at [p] is defined only inside the block of [p]. *)
Definition store_bytes (m : memory) (p : ptr) (bs : list byte) : option memory :=
  blk ← m !! ptr_block p;
  if decide (ptr_ofs p + length bs ≤ length blk)
  then Some (<[ptr_block p := overwrite blk (ptr_ofs p) bs]> m)
  else None.

(** ** Formatted output

    The two conversions the file uses are [%d], with an [int] argument, and
    [%s], with a pointer to a string.  Other conversions do not occur in
    the file and are left undefined here, as is an argument of the wrong
    kind. *)
Inductive arg : Type :=
  | ArgInt (z : Z)
  | ArgStr (p : ptr).

Definition conversion (m : memory) (c : byte) (a : arg) : option (list byte) :=
  match a with
  | ArgInt z => if Byte.eqb c x64 then Some (format_d z) else None
  | ArgStr p => if Byte.eqb c x73 then load_cstring m p else None
  end.

Fixpoint format (m : memory) (fmt : list byte) (args : list arg)
  : option (list byte) :=
  match fmt with
  | [] => Some []
  | c :: fmt' =>
      if Byte.eqb c percent then
        match fmt', args with
        | d :: fmt'', a :: args' =>
            s ← conversion m d a;
            rest ← format m fmt'' args';
            Some (s ++ rest)
        | _, _ => None
        end
      else (c ::.) <$> format m fmt' args
  end.

(** ** The process state *)
Record world {Env : Type} : Type := World {
  stdout : list byte;
  mem : memory;
  env : Env
}.
Arguments world : clear implicits.
Arguments World {Env} _ _ _.

Section Library.
Context {Env : Type}.

(** The return values of [printf] and [sprintf] (the number of characters
    written) are dropped by the caller and are not modelled. *)
Definition printf (fmt : list byte) (args : list arg) (w : world Env)
  : option (world Env) :=
  out ← format (mem w) fmt args;
  Some {| stdout := stdout w ++ out; mem := mem w; env := env w |}.

Definition sprintf (dst : ptr) (fmt : list byte) (args : list arg)
    (w : world Env) : option (world Env) :=
  out ← format (mem w) fmt args;
  m' ← store_bytes (mem w) dst (out ++ [NUL]);
  Some {| stdout := stdout w; mem := m'; env := env w |}.

Definition fmt_hello : list byte :=
  lit "[External dyloading] Hello %s" ++ [newline].

Definition fmt_result : list byte :=
  lit "[External dyloading] The result (%d + %d) is %d!".

Definition dyloading_add (a b : Z) (result : ptr) (w : world Env)
  : option (Z * world Env) :=
  w1 ← printf fmt_hello [ArgStr result] w;
  let sum := Int32.add a b in
  w2 ← sprintf result fmt_result [ArgInt a; ArgInt b; ArgInt sum] w1;
  Some (sum, w2).
End Library.

(** ** The vocabulary of the specification *)

(** Decimal text: an optional minus sign, then decimal digits without
    leading zeros whose value is the magnitude of the number. *)
Definition is_digit (c : byte) : bool :=
  ((48 <=? Byte.to_N c) && (Byte.to_N c <=? 57))%N.

Definition digit_value (c : byte) : Z := (Z.of_N (Byte.to_N c) - 48)%Z.

Definition decimal_value (ds : list byte) : Z :=
  fold_left (λ v c, (10 * v + digit_value c)%Z) ds 0%Z.

Definition decimal_text (z : Z) (s : list byte) : Prop :=
  ∃ ds : list byte,
    s = (if (z <? 0)%Z then [minus_sign] else []) ++ ds
    ∧ ds ≠ []
    ∧ Forall (λ c, is_digit c = true) ds
    ∧ (head ds = Some x30 → ds = [x30])
    ∧ decimal_value ds = Z.abs z.

(** The message of the specification, with the three numbers already in
    text form. *)
Definition message_of (ta tb tsum : list byte) : list byte :=
  lit "[External dyloading] The result (" ++ ta ++ lit " + " ++ tb
    ++ lit ") is " ++ tsum ++ lit "!".

Definition message (a b sum : Z) : list byte :=
  message_of (format_d a) (format_d b) (format_d sum).

(** The diagnostic line for a label. *)
Definition hello_line (label : list byte) : list byte :=
  lit "[External dyloading] Hello " ++ label ++ [newline].

(** What a call appended to standard output, and how many lines that is. *)
Definition written {Env : Type} (w w' : world Env) : list byte :=
  drop (length (stdout w)) (stdout w').

Definition count_lines (out : list byte) : nat :=
  length (filter (λ c, c = newline) out).

(** The buffer at [p] holds a NUL-terminated label and has room for [n]
    bytes from [p] on. *)
Definition buffer_ready (n : nat) (p : ptr) (m : memory) : Prop :=
  ∃ blk label,
    m !! ptr_block p = Some blk
    ∧ cstr (drop (ptr_ofs p) blk) = Some label
    ∧ ptr_ofs p + n ≤ length blk.

(** The largest text the call can produce, terminator included. *)
Definition max_message_size : nat := 76.

(** ** Sample callers

    A caller in the manner of the guide: a buffer of 100 bytes that holds a
    label, as [char buf[100] = "Rust"] does, passed with two operands. *)
Definition sample_buffer (label : list byte) : list byte :=
  label ++ replicate (100 - length label) NUL.

Definition sample_ptr : ptr := {| ptr_block := 7; ptr_ofs := 0 |}.

Definition sample_world {Env : Type} (label : list byte) (e : Env) : world Env :=
  {| stdout := []; mem := {[ 7 := sample_buffer label ]}; env := e |}.

(** The caller puts [blk] back in the block of [p]. *)
Definition reset_buffer {Env : Type} (p : ptr) (blk : list byte) (w : world Env)
  : world Env :=
  {| stdout := stdout w; mem := <[ptr_block p := blk]> (mem w); env := env w |}.

(** The state a defined call leaves ([w] itself when it is undefined). *)
Definition state_after {Env : Type} (a b : Z) (p : ptr) (w : world Env)
  : world Env :=
  match dyloading_add a b p w with
  | Some (_, w') => w'
  | None => w
  end.

Definition w_rust : world nat := sample_world (lit "Rust") 2024.

Definition w_rust_after : world nat :=
  Eval vm_compute in state_after 2 3 sample_ptr w_rust.

Definition w_rust_again : world nat :=
  Eval vm_compute in reset_buffer sample_ptr (sample_buffer (lit "Rust")) w_rust_after.

(** A label of two lines. *)
Definition w_two_lines : world nat :=
  sample_world (lit "a" ++ [newline] ++ lit "b") 2024.

Definition w_two_lines_after : world nat :=
  Eval vm_compute in state_after 2 3 sample_ptr w_two_lines.

(** A buffer filled with the letter A up to its last byte. *)
Definition w_filled : world nat := sample_world (replicate 99 x41) 2024.

Definition w_filled_after : world nat :=
  Eval vm_compute in state_after 0 0 sample_ptr w_filled.

(** The largest pair of operands in text: eleven characters each, and an
    eleven-character sum. *)
Definition widest_operand : Z := (-1073741824)%Z.

(** A caller whose buffer of 45 bytes is one byte short of the shortest
    message and its terminator. *)
Definition w_small : world nat :=
  {| stdout := []; mem := {[ 7 := lit "Rust" ++ replicate 41 NUL ]}; env := 2024 |}.


Definition w_rust_after_max : world nat :=
  Eval vm_compute in state_after 2147483647 1 sample_ptr w_rust.

(** The sample caller after a second call, on the buffer the first call
    left. *)
Definition w_rust_after_two : world nat :=
  Eval vm_compute in state_after (-7) 2 sample_ptr w_rust_after.

(** A caller whose buffer starts with a NUL: the empty label. *)
Definition w_empty : world nat := sample_world [] 2024.

Definition w_empty_after : world nat :=
  Eval vm_compute in state_after 2 3 sample_ptr w_empty.

(** A caller whose buffer of 100 bytes holds no NUL. *)
Definition w_unterminated : world nat :=
  {| stdout := []; mem := {[ 7 := replicate 100 x41 ]}; env := 2024 |}.

(** * Properties *)

(** ** 32-bit arithmetic *)
Section Int32Facts.
Local Open Scope Z_scope.

Lemma signed_in_range (z : Z) : Int32.in_range (Int32.signed z).
Proof.
  unfold Int32.in_range, Int32.signed, Int32.min_signed, Int32.max_signed.
  assert (Hm : Int32.modulus = 2 * Int32.half_modulus) by reflexivity.
  assert (Hh : 0 < Int32.half_modulus) by reflexivity.
  pose proof (Z.mod_pos_bound z Int32.modulus ltac:(lia)) as Hb.
  cbv zeta. destruct (Z.ltb_spec (z mod Int32.modulus) Int32.half_modulus); lia.
Qed.

Lemma signed_congruent (z : Z) :
  ∃ k : Z, Int32.signed z = z + k * Int32.modulus.
Proof.
  unfold Int32.signed. cbv zeta.
  pose proof (Z.div_mod z Int32.modulus ltac:(discriminate)) as Hd.
  destruct (Z.ltb_spec (z mod Int32.modulus) Int32.half_modulus).
  - exists (- (z / Int32.modulus)). lia.
  - exists (- (z / Int32.modulus) - 1). lia.
Qed.

Lemma signed_of_in_range (z : Z) : Int32.in_range z → Int32.signed z = z.
Proof.
  intros Hz. destruct (signed_congruent z) as [k Hk].
  pose proof (signed_in_range z) as Hs. rewrite Hk in *.
  unfold Int32.in_range, Int32.min_signed, Int32.max_signed in *.
  assert (Hm : Int32.modulus = 2 * Int32.half_modulus) by reflexivity.
  assert (Hh : 0 < Int32.half_modulus) by reflexivity.
  assert (k = 0) by nia. subst k. lia.
Qed.

Lemma in_rangeb_spec (z : Z) : Int32.in_rangeb z = true ↔ Int32.in_range z.
Proof.
  unfold Int32.in_rangeb, Int32.in_range.
  rewrite andb_true_iff, !Z.leb_le. reflexivity.
Qed.
End Int32Facts.

(** ** Decimal text of [%d] *)
Section Decimal.
Local Open Scope Z_scope.

Lemma digit_char_is_digit (d : Z) : is_digit (digit_char d) = true.
Proof. unfold digit_char. repeat case_match; reflexivity. Qed.

Lemma digit_value_char (d : Z) : 0 <= d < 10 → digit_value (digit_char d) = d.
Proof.
  intros Hd.
  assert (d = 0 ∨ d = 1 ∨ d = 2 ∨ d = 3 ∨ d = 4 ∨ d = 5 ∨ d = 6 ∨ d = 7
          ∨ d = 8 ∨ d = 9) as Hc by lia.
  repeat (destruct Hc as [-> | Hc]; [reflexivity |]). subst d. reflexivity.
Qed.

Lemma digit_char_zero (d : Z) : 0 <= d < 10 → digit_char d = x30 → d = 0.
Proof.
  intros Hd Hc. apply (f_equal digit_value) in Hc.
  rewrite digit_value_char in Hc by assumption. exact Hc.
Qed.

Lemma is_digit_not_NUL (c : byte) : is_digit c = true → c ≠ NUL.
Proof. intros Hc ->. discriminate Hc. Qed.

Lemma decimal_value_snoc (ds : list byte) (c : byte) :
  decimal_value (ds ++ [c]) = 10 * decimal_value ds + digit_value c.
Proof. unfold decimal_value. rewrite fold_left_app. reflexivity. Qed.

(** The digit loop, given enough iterations for [n], puts before [acc]
    the decimal digits of [n]. *)
Lemma utoa_digits (fuel : nat) :
  ∀ (n : Z) (acc : list byte),
    0 <= n < 2 ^ (Z.of_nat fuel + 1) →
    ∃ ds : list byte,
      utoa fuel n acc = ds ++ acc
      ∧ ds ≠ []
      ∧ Forall (λ c, is_digit c = true) ds
      ∧ (head ds = Some x30 → ds = [x30])
      ∧ decimal_value ds = n
      ∧ ∀ k : nat, n < 10 ^ Z.of_nat (S k) → (length ds ≤ S k)%nat.
Proof.
  assert (Hone : ∀ (n : Z) (acc : list byte), 0 <= n < 10 →
    ∃ ds : list byte,
      digit_char (n mod 10) :: acc = ds ++ acc
      ∧ ds ≠ []
      ∧ Forall (λ c, is_digit c = true) ds
      ∧ (head ds = Some x30 → ds = [x30])
      ∧ decimal_value ds = n
      ∧ ∀ k : nat, n < 10 ^ Z.of_nat (S k) → (length ds ≤ S k)%nat).
  { intros n acc Hn. exists [digit_char n].
    rewrite Z.mod_small by lia.
    split; [reflexivity |]. split; [discriminate |].
    split; [repeat constructor; apply digit_char_is_digit |].
    split; [intros [= ->]; reflexivity |].
    split; [| intros k _; simpl; lia].
    unfold decimal_value. simpl. rewrite digit_value_char by lia. lia. }
  induction fuel as [| fuel IH]; intros n acc Hn.
  - simpl. apply Hone. simpl in Hn. lia.
  - cbn [utoa]. cbv zeta.
    destruct (Z.eqb_spec (n / 10) 0) as [Hq | Hq].
    + apply Hone. apply Z.div_small_iff in Hq; lia.
    + assert (Hge : 10 <= n).
      { destruct (Z.le_gt_cases 10 n) as [H | H]; [exact H |].
        exfalso. apply Hq. apply Z.div_small. lia. }
      assert (Hpow : 2 ^ (Z.of_nat (S fuel) + 1) = 2 * 2 ^ (Z.of_nat fuel + 1)).
      { rewrite Nat2Z.inj_succ. rewrite <- Z.pow_succ_r by lia. f_equal; lia. }
      assert (Hq' : 0 <= n / 10 < 2 ^ (Z.of_nat fuel + 1)).
      { split; [apply Z.div_pos; lia |].
        apply Z.div_lt_upper_bound; [lia |]. lia. }
      destruct (IH (n / 10) (digit_char (n mod 10) :: acc) Hq')
        as (ds & Heq & Hne & Hdig & Hlead & Hval & Hlen).
      pose proof (Z.mod_pos_bound n 10 ltac:(lia)) as Hm.
      exists (ds ++ [digit_char (n mod 10)]).
      split; [rewrite Heq, <- app_assoc; reflexivity |].
      split; [destruct ds; discriminate |].
      split; [apply Forall_app; split;
              [exact Hdig | repeat constructor; apply digit_char_is_digit] |].
      split.
      { destruct ds as [| c ds']; [congruence |]. simpl. intros Hc.
        specialize (Hlead Hc). rewrite Hlead in Hval.
        exfalso. apply Hq. rewrite <- Hval. reflexivity. }
      split.
      { rewrite decimal_value_snoc, Hval, digit_value_char by lia.
        pose proof (Z.div_mod n 10 ltac:(lia)). lia. }
      intros k Hk. rewrite length_app. simpl.
      destruct k as [| k].
      { simpl in Hk. lia. }
      assert (Hk' : n / 10 < 10 ^ Z.of_nat (S k)).
      { apply Z.div_lt_upper_bound; [lia |].
        rewrite <- Z.pow_succ_r by lia. rewrite <- Nat2Z.inj_succ. exact Hk. }
      specialize (Hlen k Hk'). lia.
Qed.

Lemma log2_fuel (n : Z) : 0 <= n → n < 2 ^ (Z.of_nat (Z.to_nat (Z.log2 n)) + 1).
Proof.
  intros Hn. rewrite Z2Nat.id by apply Z.log2_nonneg.
  destruct (Z.eq_dec n 0) as [-> | Hz]; [reflexivity |].
  pose proof (Z.log2_spec n ltac:(lia)) as [_ Hs].
  rewrite <- Z.add_1_r in Hs. exact Hs.
Qed.

Lemma format_u_digits (n : Z) :
  0 <= n →
  ∃ ds : list byte,
    format_u n = ds
    ∧ ds ≠ []
    ∧ Forall (λ c, is_digit c = true) ds
    ∧ (head ds = Some x30 → ds = [x30])
    ∧ decimal_value ds = n
    ∧ ∀ k : nat, n < 10 ^ Z.of_nat (S k) → (length ds ≤ S k)%nat.
Proof.
  intros Hn. unfold format_u.
  destruct (utoa_digits (Z.to_nat (Z.log2 n)) n [] (conj Hn (log2_fuel n Hn)))
    as (ds & Heq & H).
  exists ds. rewrite app_nil_r in Heq. split; [exact Heq | exact H].
Qed.

(** [%d] prints the decimal text of its argument. *)
Lemma format_d_decimal_text (z : Z) : decimal_text z (format_d z).
Proof.
  unfold decimal_text, format_d.
  destruct (Z.ltb_spec z 0) as [Hneg | Hpos].
  - destruct (format_u_digits (- z) ltac:(lia))
      as (ds & -> & Hne & Hdig & Hlead & Hval & _).
    exists ds. repeat split; try assumption. lia.
  - destruct (format_u_digits z Hpos)
      as (ds & -> & Hne & Hdig & Hlead & Hval & _).
    exists ds. repeat split; try assumption. lia.
Qed.

(** An [int32_t] prints in at most eleven characters. *)
Lemma format_d_length (z : Z) :
  Int32.in_range z → (length (format_d z) ≤ 11)%nat.
Proof.
  unfold Int32.in_range, Int32.min_signed, Int32.max_signed.
  change Int32.half_modulus with 2147483648. intros Hz.
  unfold format_d. destruct (Z.ltb_spec z 0) as [Hneg | Hpos].
  - destruct (format_u_digits (- z) ltac:(lia)) as (ds & -> & _ & _ & _ & _ & Hlen).
    specialize (Hlen 9%nat). simpl length.
    assert (- z < 10 ^ Z.of_nat 10) by (change (10 ^ Z.of_nat 10) with 10000000000; lia).
    apply Hlen in H. lia.
  - destruct (format_u_digits z Hpos) as (ds & -> & _ & _ & _ & _ & Hlen).
    specialize (Hlen 9%nat).
    assert (z < 10 ^ Z.of_nat 10) by (change (10 ^ Z.of_nat 10) with 10000000000; lia).
    apply Hlen in H. lia.
Qed.

(** Conversely, decimal text is what [%d] prints: the text of a number
    is unique. *)
Lemma digit_char_value (c : byte) :
  is_digit c = true → digit_char (digit_value c) = c ∧ 0 <= digit_value c < 10.
Proof.
  destruct c; intros Hc; try discriminate Hc;
    (split; [reflexivity | unfold digit_value; simpl; lia]).
Qed.

Lemma fold_digits_ge (l : list byte) :
  ∀ u : Z, 0 <= u → Forall (λ c, is_digit c = true) l →
           u <= fold_left (λ v c, 10 * v + digit_value c) l u.
Proof.
  induction l as [| e l IH]; intros u Hu Hl; simpl; [lia |].
  apply Forall_cons in Hl as [He Hl].
  destruct (digit_char_value e He) as [_ Hev].
  transitivity (10 * u + digit_value e); [lia |].
  apply IH; [lia | exact Hl].
Qed.

Lemma decimal_value_nonneg (ds : list byte) :
  Forall (λ c, is_digit c = true) ds → 0 <= decimal_value ds.
Proof. intros Hds. apply fold_digits_ge; [lia | exact Hds]. Qed.

Lemma decimal_value_head_pos (c : byte) (ds : list byte) :
  Forall (λ c, is_digit c = true) (c :: ds) → c ≠ x30 →
  0 < decimal_value (c :: ds).
Proof.
  intros Hall Hc. apply Forall_cons in Hall as [Hd Hds].
  destruct (digit_char_value c Hd) as [Hchar Hv].
  assert (Hpos : 0 < digit_value c).
  { destruct (Z.eq_dec (digit_value c) 0) as [Hz | Hz]; [| lia].
    exfalso. apply Hc. rewrite <- Hchar, Hz. reflexivity. }
  pose proof (fold_digits_ge ds (digit_value c) ltac:(lia) Hds) as Hge.
  change (decimal_value (c :: ds))
    with (fold_left (λ v e, 10 * v + digit_value e) ds (digit_value c)).
  lia.
Qed.

Lemma utoa_complete (ds : list byte) :
  Forall (λ c, is_digit c = true) ds → ds ≠ [] →
  (head ds = Some x30 → ds = [x30]) →
  ∀ (fuel : nat) (acc : list byte),
    decimal_value ds < 2 ^ (Z.of_nat fuel + 1) →
    utoa fuel (decimal_value ds) acc = ds ++ acc.
Proof.
  induction ds as [| c ds IH] using rev_ind; intros Hall Hne Hlead fuel acc Hfuel;
    [congruence |].
  apply Forall_app in Hall as [Hds Hc]. apply Forall_cons in Hc as [Hc _].
  destruct (digit_char_value c Hc) as [Hchar Hv].
  pose proof (decimal_value_nonneg ds Hds) as Hnn.
  rewrite decimal_value_snoc in *.
  assert (Hmod : (10 * decimal_value ds + digit_value c) mod 10 = digit_value c).
  { rewrite Z.add_comm, Z.mul_comm, Z.mod_add by lia. apply Z.mod_small. lia. }
  assert (Hdiv : (10 * decimal_value ds + digit_value c) / 10 = decimal_value ds).
  { rewrite Z.add_comm, Z.mul_comm, Z.div_add by lia.
    rewrite Z.div_small by lia. lia. }
  destruct ds as [| d ds].
  - change (decimal_value []) with 0 in *.
    destruct fuel; cbn [utoa]; cbv zeta; rewrite Hmod, ?Hdiv, Hchar; reflexivity.
  - assert (Hd : d ≠ x30).
    { intros ->. specialize (Hlead eq_refl). destruct ds; discriminate Hlead. }
    pose proof (decimal_value_head_pos d ds Hds Hd) as Hpos.
    destruct fuel as [| fuel].
    { change (2 ^ (Z.of_nat 0 + 1)) with 2 in Hfuel. lia. }
    cbn [utoa]. cbv zeta. rewrite Hmod, Hdiv, Hchar.
    destruct (Z.eqb_spec (decimal_value (d :: ds)) 0) as [Hz | _]; [lia |].
    rewrite IH; [rewrite <- app_assoc; reflexivity | exact Hds | discriminate | | ].
    + simpl. intros [= ->]. contradiction.
    + assert (Hpow : 2 ^ (Z.of_nat (S fuel) + 1) = 2 * 2 ^ (Z.of_nat fuel + 1)).
      { rewrite Nat2Z.inj_succ. rewrite <- Z.pow_succ_r by lia. f_equal; lia. }
      lia.
Qed.

Lemma decimal_text_unique (z : Z) (s : list byte) :
  decimal_text z s → s = format_d z.
Proof.
  intros (ds & -> & Hne & Hdig & Hlead & Hval).
  assert (Hu : format_u (Z.abs z) = ds).
  { unfold format_u. rewrite <- Hval.
    rewrite utoa_complete; [apply app_nil_r | assumption..|].
    apply log2_fuel. apply decimal_value_nonneg. exact Hdig. }
  unfold format_d. destruct (Z.ltb_spec z 0) as [Hneg | Hpos].
  - rewrite <- Z.abs_neq by lia. rewrite Hu. reflexivity.
  - rewrite Z.abs_eq in Hu by lia. rewrite Hu. reflexivity.
Qed.

Lemma format_d_no_NUL (z : Z) : Forall (λ c, c ≠ NUL) (format_d z).
Proof.
  destruct (format_d_decimal_text z) as (ds & -> & _ & Hdig & _).
  apply Forall_app. split.
  - destruct (z <? 0); repeat constructor. discriminate.
  - eapply Forall_impl; [exact Hdig |]. intros c. apply is_digit_not_NUL.
Qed.

Lemma format_d_no_newline (z : Z) : Forall (λ c, c ≠ newline) (format_d z).
Proof.
  destruct (format_d_decimal_text z) as (ds & -> & _ & Hdig & _).
  apply Forall_app. split.
  - destruct (z <? 0); repeat constructor. discriminate.
  - eapply Forall_impl; [exact Hdig |]. intros c Hc ->. discriminate Hc.
Qed.
End Decimal.

(** ** Strings and blocks in memory *)
Section Memory.
Implicit Types (blk bs s l : list byte) (i j k : nat).

Lemma cstr_app_NUL s l : Forall (λ c, c ≠ NUL) s → cstr (s ++ NUL :: l) = Some s.
Proof.
  induction 1 as [| c s Hc _ IH]; simpl; [reflexivity |].
  destruct (Byte.eqb c NUL) eqn:E.
  - apply Byte.byte_dec_bl in E. contradiction.
  - rewrite IH. reflexivity.
Qed.

(** The string read at the head of [l] is what [l] holds before its
    first NUL. *)
Lemma cstr_Some l s :
  cstr l = Some s → Forall (λ c, c ≠ NUL) s ∧ ∃ l', l = s ++ NUL :: l'.
Proof.
  revert s. induction l as [| c l IH]; simpl; intros s Hs; [discriminate |].
  destruct (Byte.eqb c NUL) eqn:E.
  - apply Byte.byte_dec_bl in E. subst c. injection Hs as <-.
    split; [constructor | exists l; reflexivity].
  - destruct (cstr l) as [s' |]; [| discriminate]. injection Hs as <-.
    destruct (IH s' eq_refl) as [Hall [l' ->]].
    split; [| exists l'; reflexivity].
    constructor; [| exact Hall]. intros ->. discriminate E.
Qed.

Lemma length_overwrite blk i bs :
  i + length bs ≤ length blk → length (overwrite blk i bs) = length blk.
Proof.
  intros H. unfold overwrite. rewrite !length_app, length_take, length_drop. lia.
Qed.

Lemma lookup_overwrite_lt blk i bs j :
  i ≤ length blk → j < i → overwrite blk i bs !! j = blk !! j.
Proof.
  intros Hi Hj. unfold overwrite.
  rewrite lookup_app_l by (rewrite length_take; lia).
  apply lookup_take_lt. exact Hj.
Qed.

Lemma lookup_overwrite_in blk i bs k :
  i ≤ length blk → k < length bs → overwrite blk i bs !! (i + k) = bs !! k.
Proof.
  intros Hi Hk. unfold overwrite.
  rewrite lookup_app_r by (rewrite length_take; lia).
  rewrite length_take. replace (i + k - i `min` length blk) with k by lia.
  apply lookup_app_l. exact Hk.
Qed.

Lemma lookup_overwrite_ge blk i bs j :
  i ≤ length blk → i + length bs ≤ j → overwrite blk i bs !! j = blk !! j.
Proof.
  intros Hi Hj. unfold overwrite.
  rewrite lookup_app_r by (rewrite length_take; lia).
  rewrite length_take.
  rewrite lookup_app_r by lia.
  rewrite lookup_drop. f_equal. lia.
Qed.

Lemma drop_overwrite blk i bs :
  i ≤ length blk → drop i (overwrite blk i bs) = bs ++ drop (i + length bs) blk.
Proof.
  intros Hi. unfold overwrite.
  rewrite drop_app_length'; [reflexivity |]. rewrite length_take. lia.
Qed.
End Memory.

(** ** The two format strings *)
Section Formats.
Lemma format_hello (m : memory) (p : ptr) :
  format m fmt_hello [ArgStr p] = hello_line <$> load_cstring m p.
Proof.
  unfold fmt_hello, hello_line. cbn -[load_cstring].
  destruct (load_cstring m p); reflexivity.
Qed.

Lemma format_result (m : memory) (a b sum : Z) :
  format m fmt_result [ArgInt a; ArgInt b; ArgInt sum] = Some (message a b sum).
Proof. reflexivity. Qed.

Lemma length_message_of (ta tb tsum : list byte) :
  length (message_of ta tb tsum) = 42 + length ta + length tb + length tsum.
Proof. unfold message_of. rewrite !length_app. simpl. lia. Qed.

Lemma message_size (a b : Z) :
  Int32.in_range a → Int32.in_range b →
  length (message a b (Int32.add a b) ++ [NUL]) ≤ max_message_size.
Proof.
  intros Ha Hb. rewrite length_app. unfold message.
  rewrite length_message_of.
  pose proof (format_d_length a Ha).
  pose proof (format_d_length b Hb).
  pose proof (format_d_length _ (signed_in_range (a + b))).
  unfold Int32.add, max_message_size. simpl. lia.
Qed.

Lemma message_no_NUL (a b sum : Z) : Forall (λ c, c ≠ NUL) (message a b sum).
Proof.
  unfold message, message_of.
  repeat (apply Forall_app; split); try apply format_d_no_NUL;
    repeat constructor; discriminate.
Qed.
End Formats.

(** ** What a call does *)
Section Call.
Context {Env : Type}.
Implicit Types (w : world Env) (p : ptr) (a b r : Z).

(** The body of the function, with the two format strings resolved. *)
Lemma dyloading_add_eq a b p w :
  dyloading_add a b p w =
    label ← load_cstring (mem w) p;
    m' ← store_bytes (mem w) p (message a b (Int32.add a b) ++ [NUL]);
    Some (Int32.add a b,
          {| stdout := stdout w ++ hello_line label; mem := m'; env := env w |}).
Proof.
  unfold dyloading_add, printf, sprintf. rewrite format_hello.
  destruct (load_cstring (mem w) p) as [label |]; [| reflexivity].
  cbn [fmap option_fmap option_map mbind option_bind mem stdout env].
  rewrite format_result.
  cbn [mbind option_bind].
  destruct (store_bytes _ _ _); reflexivity.
Qed.

Lemma dyloading_add_inv a b p w r w' :
  dyloading_add a b p w = Some (r, w') →
  ∃ blk label,
    mem w !! ptr_block p = Some blk
    ∧ cstr (drop (ptr_ofs p) blk) = Some label
    ∧ ptr_ofs p + length (message a b r ++ [NUL]) ≤ length blk
    ∧ r = Int32.add a b
    ∧ w' = {| stdout := stdout w ++ hello_line label;
              mem := <[ptr_block p :=
                         overwrite blk (ptr_ofs p) (message a b r ++ [NUL])]> (mem w);
              env := env w |}.
Proof.
  rewrite dyloading_add_eq. unfold load_cstring, store_bytes.
  destruct (mem w !! ptr_block p) as [blk |] eqn:Hblk; [| discriminate].
  cbn [mbind option_bind].
  destruct (cstr (drop (ptr_ofs p) blk)) as [label |] eqn:Hlabel; [| discriminate].
  cbn [mbind option_bind].
  destruct (decide _) as [Hle |]; [| discriminate].
  cbn [mbind option_bind]. intros [= <- <-].
  exists blk, label. repeat split; assumption.
Qed.

Lemma dyloading_add_room a b p w (n : nat) :
  length (message a b (Int32.add a b) ++ [NUL]) ≤ n →
  buffer_ready n p (mem w) →
  ∃ blk label,
    mem w !! ptr_block p = Some blk
    ∧ cstr (drop (ptr_ofs p) blk) = Some label
    ∧ ptr_ofs p + length (message a b (Int32.add a b) ++ [NUL]) ≤ length blk
    ∧ dyloading_add a b p w =
        Some (Int32.add a b,
              {| stdout := stdout w ++ hello_line label;
                 mem := <[ptr_block p :=
                            overwrite blk (ptr_ofs p)
                              (message a b (Int32.add a b) ++ [NUL])]> (mem w);
                 env := env w |}).
Proof.
  intros Hsize (blk & label & Hblk & Hlabel & Hroom).
  exists blk, label. split; [exact Hblk |]. split; [exact Hlabel |].
  split; [lia |].
  rewrite dyloading_add_eq. unfold load_cstring, store_bytes.
  rewrite Hblk. cbn [mbind option_bind]. rewrite Hlabel. cbn [mbind option_bind].
  destruct (decide _) as [| Hn]; [reflexivity | lia].
Qed.

Lemma dyloading_add_defined a b p w :
  Int32.in_range a → Int32.in_range b →
  buffer_ready max_message_size p (mem w) →
  ∃ blk label,
    mem w !! ptr_block p = Some blk
    ∧ cstr (drop (ptr_ofs p) blk) = Some label
    ∧ ptr_ofs p + length (message a b (Int32.add a b) ++ [NUL]) ≤ length blk
    ∧ dyloading_add a b p w =
        Some (Int32.add a b,
              {| stdout := stdout w ++ hello_line label;
                 mem := <[ptr_block p :=
                            overwrite blk (ptr_ofs p)
                              (message a b (Int32.add a b) ++ [NUL])]> (mem w);
                 env := env w |}).
Proof.
  intros Ha Hb. apply dyloading_add_room. apply message_size; assumption.
Qed.

(** After the write, the buffer reads back as the message. *)
Lemma load_cstring_written (m : memory) p (blk msg : list byte) :
  ptr_ofs p ≤ length blk →
  Forall (λ c, c ≠ NUL) msg →
  load_cstring (<[ptr_block p := overwrite blk (ptr_ofs p) (msg ++ [NUL])]> m) p
    = Some msg.
Proof.
  intros Hofs Hmsg. unfold load_cstring. rewrite lookup_insert_eq.
  cbn [mbind option_bind]. rewrite drop_overwrite by exact Hofs.
  rewrite <- app_assoc. apply cstr_app_NUL. exact Hmsg.
Qed.

Lemma load_byte_written_in (m : memory) p (blk bs : list byte) (k : nat) :
  ptr_ofs p ≤ length blk → k < length bs →
  load_byte (<[ptr_block p := overwrite blk (ptr_ofs p) bs]> m) (ptr_add p k)
    = bs !! k.
Proof.
  intros Hofs Hk. unfold load_byte, ptr_add. cbn [ptr_block ptr_ofs].
  rewrite lookup_insert_eq. cbn [mbind option_bind].
  apply lookup_overwrite_in; assumption.
Qed.

(** Bytes of other blocks, and bytes of the block of [p] outside the
    written range, are as before. *)
Lemma load_byte_written_out (m : memory) p q (blk bs : list byte) :
  m !! ptr_block p = Some blk →
  ptr_ofs p ≤ length blk →
  ptr_block q ≠ ptr_block p
    ∨ ptr_ofs q < ptr_ofs p ∨ ptr_ofs p + length bs ≤ ptr_ofs q →
  load_byte (<[ptr_block p := overwrite blk (ptr_ofs p) bs]> m) q = load_byte m q.
Proof.
  intros Hblk Hofs Hq. unfold load_byte.
  destruct (decide (ptr_block q = ptr_block p)) as [Heq | Hne].
  - rewrite Heq, lookup_insert_eq, Hblk. cbn [mbind option_bind].
    destruct Hq as [Hq | [Hq | Hq]]; [congruence | |].
    + apply lookup_overwrite_lt; assumption.
    + apply lookup_overwrite_ge; assumption.
  - rewrite lookup_insert_ne by congruence. reflexivity.
Qed.

(** Whenever the call returns, it returns the 32-bit sum and the buffer
    reads back as the message. *)
Lemma buffer_after_call a b p w r w' :
  dyloading_add a b p w = Some (r, w') →
  r = Int32.add a b ∧ load_cstring (mem w') p = Some (message a b r).
Proof.
  intros Hcall.
  destruct (dyloading_add_inv _ _ _ _ _ _ Hcall)
    as (blk & label & _ & _ & Hroom & Hr & ->).
  split; [exact Hr |].
  cbn [mem]. apply load_cstring_written; [lia | apply message_no_NUL].
Qed.

Lemma written_app w (out : list byte) (m : memory) (e : Env) :
  written w {| stdout := stdout w ++ out; mem := m; env := e |} = out.
Proof. unfold written. cbn [stdout]. apply drop_app_length. Qed.
End Call.

(** * The claims *)
Section Claims.
Context {Env : Type}.
Implicit Types (w : world Env) (p : ptr) (a b r : Z).

(** C1. For 32-bit operands whose sum does not overflow, a call that
    returns, returns exactly [a + b]; and the call does return on a buffer
    that holds a label and has room for the message. *)
Theorem dyloading_add_returns_sum a b p w :
  Int32.in_range a → Int32.in_range b → Int32.in_range (a + b) →
  (∀ r w', dyloading_add a b p w = Some (r, w') → r = (a + b)%Z)
  ∧ (buffer_ready max_message_size p (mem w) →
     ∃ w', dyloading_add a b p w = Some ((a + b)%Z, w')).
Proof.
  intros Ha Hb Hsum. split.
  - intros r w' Hcall. apply buffer_after_call in Hcall as [-> _].
    apply signed_of_in_range. exact Hsum.
  - intros Hbuf.
    destruct (dyloading_add_defined a b p w Ha Hb Hbuf)
      as (blk & label & _ & _ & _ & Hcall).
    unfold Int32.add in Hcall. rewrite (signed_of_in_range _ Hsum) in Hcall.
    eexists. exact Hcall.
Qed.

(** C2. For such operands, after a call returns the buffer holds, as a
    NUL-terminated string, exactly
    "[External dyloading] The result (<a> + <b>) is <sum>!", where the
    three numbers are the decimal texts of [a], [b] and [a + b]: digits
    without leading zeros, after a minus sign when negative.  The call
    does return on a buffer that holds a label and has room. *)
Theorem dyloading_add_buffer_text a b p w :
  Int32.in_range a → Int32.in_range b → Int32.in_range (a + b) →
  ∃ ta tb tsum,
    decimal_text a ta ∧ decimal_text b tb ∧ decimal_text (a + b) tsum
    ∧ (∀ r w', dyloading_add a b p w = Some (r, w') →
         load_cstring (mem w') p
         = Some (lit "[External dyloading] The result (" ++ ta ++ lit " + " ++ tb
                   ++ lit ") is " ++ tsum ++ lit "!"))
    ∧ (buffer_ready max_message_size p (mem w) →
       ∃ w', dyloading_add a b p w = Some ((a + b)%Z, w')).
Proof.
  intros Ha Hb Hsum.
  exists (format_d a), (format_d b), (format_d (a + b)).
  repeat (split; [apply format_d_decimal_text |]). split.
  - intros r w' Hcall. apply buffer_after_call in Hcall as [-> Hbuf].
    unfold Int32.add in Hbuf. rewrite (signed_of_in_range _ Hsum) in Hbuf.
    exact Hbuf.
  - intros Hbuf.
    destruct (dyloading_add_defined a b p w Ha Hb Hbuf)
      as (blk & label & _ & _ & _ & Hcall).
    unfold Int32.add in Hcall. rewrite (signed_of_in_range _ Hsum) in Hcall.
    eexists. exact Hcall.
Qed.

(** C3, as amended. Every call appends to standard output exactly the
    bytes "[External dyloading] Hello ", the string the buffer held
    before the call, and a newline; the buffer is overwritten only
    afterwards.  That is one line when the label holds no newline, and
    one more line for each newline in the label. *)
Theorem hello_line_written a b p w r w' :
  dyloading_add a b p w = Some (r, w') →
  ∃ label,
    load_cstring (mem w) p = Some label
    ∧ stdout w' = stdout w ++ lit "[External dyloading] Hello " ++ label ++ [newline]
    ∧ count_lines (written w w') = 1 + count_lines label
    ∧ (Forall (λ c, c ≠ newline) label → count_lines (written w w') = 1).
Proof.
  intros Hcall.
  destruct (dyloading_add_inv _ _ _ _ _ _ Hcall)
    as (blk & label & Hblk & Hlabel & _ & _ & ->).
  exists label.
  assert (Hcount : count_lines (hello_line label) = 1 + count_lines label).
  { unfold count_lines, hello_line. rewrite !filter_app, !length_app.
    change (length (filter (λ c, c = newline) (lit "[External dyloading] Hello ")))
      with 0.
    change (length (filter (λ c, c = newline) [newline])) with 1. lia. }
  split; [unfold load_cstring; rewrite Hblk; exact Hlabel |].
  split; [reflexivity |].
  rewrite written_app. split; [exact Hcount |].
  intros Hnone. rewrite Hcount. unfold count_lines.
  replace (filter (λ c, c = newline) label) with (@nil byte); [reflexivity |].
  symmetry. clear -Hnone. induction Hnone as [| c l Hc _ IH]; [reflexivity |].
  rewrite filter_cons_False by exact Hc. exact IH.
Qed.

(** C4. The three scenarios: on a buffer that holds a label and has room
    for the longest of the three messages, operands 2 and 3 return 5, -7
    and 2 return -5, 0 and 0 return 0, and each call leaves its message in
    the buffer. *)
Theorem concrete_scenarios p w :
  buffer_ready 48 p (mem w) →
  (∃ w', dyloading_add 2 3 p w = Some (5%Z, w')
         ∧ load_cstring (mem w') p
           = Some (lit "[External dyloading] The result (2 + 3) is 5!"))
  ∧ (∃ w', dyloading_add (-7) 2 p w = Some ((-5)%Z, w')
           ∧ load_cstring (mem w') p
             = Some (lit "[External dyloading] The result (-7 + 2) is -5!"))
  ∧ (∃ w', dyloading_add 0 0 p w = Some (0%Z, w')
           ∧ load_cstring (mem w') p
             = Some (lit "[External dyloading] The result (0 + 0) is 0!")).
Proof.
  intros Hbuf.
  assert (Hone : ∀ a b,
    (length (message a b (Int32.add a b) ++ [NUL]) <=? 48) = true →
    ∃ w', dyloading_add a b p w = Some (Int32.add a b, w')
          ∧ load_cstring (mem w') p = Some (message a b (Int32.add a b))).
  { intros a b Hlen%Nat.leb_le.
    destruct (dyloading_add_room a b p w 48 Hlen Hbuf)
      as (blk & label & _ & _ & _ & Hcall).
    eexists. split; [exact Hcall |].
    apply buffer_after_call in Hcall as [_ Hread]. exact Hread. }
  split; [| split].
  - exact (Hone 2%Z 3%Z eq_refl).
  - exact (Hone (-7)%Z 2%Z eq_refl).
  - exact (Hone 0%Z 0%Z eq_refl).
Qed.

(** C5. For every pair of 32-bit operands, overflowing or not, the value
    a call returns is [a + b] reduced modulo [2^32] into the signed 32-bit
    range, and the sum printed in the buffer is the decimal text of that
    same value, between the decimal texts of [a] and [b]; no overflow is
    checked: the call returns on every such pair, given a buffer that
    holds a label and has room. *)
Theorem sum_wraps_around a b p w :
  Int32.in_range a → Int32.in_range b →
  (∀ r w', dyloading_add a b p w = Some (r, w') →
     Int32.in_range r
     ∧ (∃ k : Z, r = (a + b + k * 2 ^ 32)%Z)
     ∧ ∃ ta tb tsum,
         decimal_text a ta ∧ decimal_text b tb ∧ decimal_text r tsum
         ∧ load_cstring (mem w') p
           = Some (lit "[External dyloading] The result (" ++ ta ++ lit " + "
                     ++ tb ++ lit ") is " ++ tsum ++ lit "!"))
  ∧ (buffer_ready max_message_size p (mem w) →
     ∃ r w', dyloading_add a b p w = Some (r, w')).
Proof.
  intros Ha Hb. split.
  - intros r w' Hcall. apply buffer_after_call in Hcall as [-> Hread].
    split; [apply signed_in_range |].
    split; [apply signed_congruent |].
    exists (format_d a), (format_d b), (format_d (Int32.add a b)).
    repeat (split; [apply format_d_decimal_text |]).
    exact Hread.
  - intros Hbuf.
    destruct (dyloading_add_defined a b p w Ha Hb Hbuf)
      as (blk & label & _ & _ & _ & Hcall).
    eexists _, _. exact Hcall.
Qed.

(** C6. The outcome of a call depends only on the operands and on the
    buffer: from two states that agree on the block of [result], however
    they differ in earlier output, other memory or the rest of the
    process, two calls with the same operands are both defined or both
    undefined, and when defined they return the same value, leave the
    same buffer and write the same bytes to standard output. *)
Theorem dyloading_add_stateless a b p (w1 w2 : world Env) :
  mem w1 !! ptr_block p = mem w2 !! ptr_block p →
  match dyloading_add a b p w1, dyloading_add a b p w2 with
  | Some (r1, w1'), Some (r2, w2') =>
      r1 = r2
      ∧ mem w1' !! ptr_block p = mem w2' !! ptr_block p
      ∧ written w1 w1' = written w2 w2'
  | None, None => True
  | _, _ => False
  end.
Proof.
  intros Hsame. rewrite !dyloading_add_eq. unfold load_cstring, store_bytes.
  rewrite <- Hsame.
  destruct (mem w1 !! ptr_block p) as [blk |]; [| exact I].
  cbn [mbind option_bind].
  destruct (cstr (drop (ptr_ofs p) blk)) as [label |]; [| exact I].
  cbn [mbind option_bind].
  destruct (decide _); [| exact I].
  cbn [mbind option_bind mem].
  split; [reflexivity |]. split.
  - rewrite !lookup_insert_eq. reflexivity.
  - rewrite !written_app. reflexivity.
Qed.

(** C7. For every pair of 32-bit operands, on a buffer that holds a label
    and has room for the message, the call runs to completion and returns
    a value, the sum; every 32-bit value is the sum of some call, so none
    is set apart to report a failure. *)
Theorem dyloading_add_no_error a b p w :
  Int32.in_range a → Int32.in_range b →
  buffer_ready max_message_size p (mem w) →
  (∃ w', dyloading_add a b p w = Some (Int32.add a b, w')
         ∧ Int32.in_range (Int32.add a b))
  ∧ ∀ v, Int32.in_range v → ∃ w', dyloading_add v 0 p w = Some (v, w').
Proof.
  intros Ha Hb Hbuf. split.
  - destruct (dyloading_add_defined a b p w Ha Hb Hbuf)
      as (blk & label & _ & _ & _ & Hcall).
    eexists. split; [exact Hcall | apply signed_in_range].
  - intros v Hv.
    assert (H0 : Int32.in_range 0) by (apply in_rangeb_spec; reflexivity).
    destruct (dyloading_add_defined v 0 p w Hv H0 Hbuf)
      as (blk & label & _ & _ & _ & Hcall).
    unfold Int32.add in Hcall. rewrite Z.add_0_r in Hcall.
    rewrite (signed_of_in_range v Hv) in Hcall.
    eexists. exact Hcall.
Qed.

(** C8, as amended. A call changes nothing but standard output and the
    bytes of the buffer from [result] up to the terminator of the message.
    To standard output it appends exactly "[External dyloading] Hello ",
    the string the buffer held before the call, and a newline: one line
    when that string holds no newline, and one more line for each newline
    in it.  The rest of the process state is the same, no block is
    created, removed or resized, and every byte of memory outside the
    written range, where the caller keeps its own copies of the operands,
    reads as before. *)
Theorem dyloading_add_frame a b p w r w' :
  dyloading_add a b p w = Some (r, w') →
  env w' = env w
  ∧ (∃ label,
       load_cstring (mem w) p = Some label
       ∧ stdout w'
         = stdout w ++ lit "[External dyloading] Hello " ++ label ++ [newline]
       ∧ count_lines (written w w') = 1 + count_lines label)
  ∧ dom (mem w') = dom (mem w)
  ∧ (∀ blk, length <$> mem w' !! blk = length <$> mem w !! blk)
  ∧ ∀ q, ptr_block q ≠ ptr_block p
         ∨ ptr_ofs q < ptr_ofs p
         ∨ ptr_ofs p + length (message a b r) < ptr_ofs q →
         load_byte (mem w') q = load_byte (mem w) q.
Proof.
  intros Hcall.
  destruct (dyloading_add_inv _ _ _ _ _ _ Hcall)
    as (blk & label & Hblk & Hlabel & Hroom & _ & ->).
  cbn [env stdout mem].
  split; [reflexivity |]. split.
  { exists label.
    split; [unfold load_cstring; rewrite Hblk; exact Hlabel |].
    split; [reflexivity |].
    rewrite written_app. unfold count_lines, hello_line.
    rewrite !filter_app, !length_app.
    change (length (filter (λ c, c = newline) (lit "[External dyloading] Hello ")))
      with 0.
    change (length (filter (λ c, c = newline) [newline])) with 1. lia. }
  split; [| split].
  - apply dom_insert_lookup_L. eauto.
  - intros i. destruct (decide (i = ptr_block p)) as [-> | Hne].
    + rewrite lookup_insert_eq, Hblk. cbn [fmap option_fmap option_map].
      rewrite length_overwrite by exact Hroom. reflexivity.
    + rewrite lookup_insert_ne by congruence. reflexivity.
  - intros q Hq. apply load_byte_written_out; [exact Hblk | lia |].
    rewrite length_app. cbn [length]. lia.
Qed.

(** C9, as amended. Within the buffer a call writes the message and its
    terminator and nothing after them: every byte at an offset greater
    than the length of the message keeps its value, and the byte at the
    offset equal to that length becomes the terminating NUL. *)
Theorem buffer_tail_preserved a b p w r w' :
  dyloading_add a b p w = Some (r, w') →
  (∀ i, length (message a b r) < i →
        load_byte (mem w') (ptr_add p i) = load_byte (mem w) (ptr_add p i))
  ∧ load_byte (mem w') (ptr_add p (length (message a b r))) = Some NUL.
Proof.
  intros Hcall.
  destruct (dyloading_add_inv _ _ _ _ _ _ Hcall)
    as (blk & label & Hblk & Hlabel & Hroom & _ & ->).
  cbn [mem]. rewrite length_app in Hroom. cbn [length] in Hroom. split.
  - intros i Hi. apply load_byte_written_out; [exact Hblk | lia |].
    right. right. unfold ptr_add. cbn [ptr_ofs]. rewrite length_app. cbn [length]. lia.
  - rewrite load_byte_written_in; [| lia | rewrite length_app; cbn [length]; lia].
    rewrite lookup_app_r by lia. rewrite Nat.sub_diag. reflexivity.
Qed.

(** C10. For every pair of 32-bit operands the text written in the
    buffer is a NUL-terminated string of 42 fixed characters and three
    numbers of at most 11 characters each, at most 76 bytes with its
    terminator; so on a buffer with 76 bytes of room the call is defined
    and no byte at or beyond that room is touched. *)
Theorem message_fits_76_bytes a b p w :
  Int32.in_range a → Int32.in_range b →
  buffer_ready 76 p (mem w) →
  ∃ w' msg,
    dyloading_add a b p w = Some (Int32.add a b, w')
    ∧ msg = message a b (Int32.add a b)
    ∧ length msg
      = 42 + length (format_d a) + length (format_d b)
          + length (format_d (Int32.add a b))
    ∧ length (format_d a) ≤ 11 ∧ length (format_d b) ≤ 11
    ∧ length (format_d (Int32.add a b)) ≤ 11
    ∧ length (msg ++ [NUL]) ≤ 76
    ∧ Forall (λ c, c ≠ NUL) msg
    ∧ (∀ i, i < length (msg ++ [NUL]) →
            load_byte (mem w') (ptr_add p i) = (msg ++ [NUL]) !! i)
    ∧ load_cstring (mem w') p = Some msg
    ∧ (∀ blk, length <$> mem w' !! blk = length <$> mem w !! blk)
    ∧ ∀ q, ptr_block q ≠ ptr_block p
           ∨ ptr_ofs q < ptr_ofs p
           ∨ ptr_ofs p + 76 ≤ ptr_ofs q →
           load_byte (mem w') q = load_byte (mem w) q.
Proof.
  intros Ha Hb Hbuf.
  destruct (dyloading_add_defined a b p w Ha Hb Hbuf)
    as (blk & label & Hblk & Hlabel & Hroom & Hcall).
  pose proof (message_size a b Ha Hb) as Hsize.
  unfold max_message_size in Hsize.
  eexists _, (message a b (Int32.add a b)).
  split; [exact Hcall |]. split; [reflexivity |].
  split; [apply length_message_of |].
  split; [apply format_d_length, Ha |].
  split; [apply format_d_length, Hb |].
  split; [apply format_d_length, signed_in_range |].
  split; [exact Hsize |].
  split; [apply message_no_NUL |].
  cbn [mem]. split; [| split; [| split]].
  - intros i Hi. apply load_byte_written_in; [lia | exact Hi].
  - apply load_cstring_written; [lia | apply message_no_NUL].
  - intros i. destruct (decide (i = ptr_block p)) as [-> | Hne].
    + rewrite lookup_insert_eq, Hblk. cbn [fmap option_fmap option_map].
      rewrite length_overwrite by exact Hroom. reflexivity.
    + rewrite lookup_insert_ne by congruence. reflexivity.
  - intros q Hq. apply load_byte_written_out; [exact Hblk | lia | lia].
Qed.
End Claims.

(** The bound of 76 bytes is reached. *)
Example widest_message :
  length (message widest_operand widest_operand
            (Int32.add widest_operand widest_operand) ++ [NUL]) = 76.
Proof. reflexivity. Qed.

(** Past the 32-bit range the sum comes back from the other end. *)
Example max_plus_one :
  fst <$> dyloading_add 2147483647 1 sample_ptr w_rust = Some (-2147483648)%Z.
Proof. vm_compute. reflexivity. Qed.

(** ** The claims that fail as stated *)

(** C3 as stated: every call writes exactly one line.  A label of two
    lines makes the call write two. *)
Lemma one_line_per_call_fails :
  ¬ (∀ (a b : Z) (p : ptr) (w w' : world nat) (r : Z),
       dyloading_add a b p w = Some (r, w') →
       ∃ label,
         load_cstring (mem w) p = Some label
         ∧ written w w' = hello_line label
         ∧ count_lines (written w w') = 1).
Proof.
  intros H.
  destruct (H 2%Z 3%Z sample_ptr w_two_lines w_two_lines_after 5%Z
              ltac:(vm_compute; reflexivity)) as (label & _ & _ & Hone).
  vm_compute in Hone. discriminate Hone.
Qed.

(** C9 as stated: every byte at an offset greater than or equal to the
    length of the message keeps its value.  The byte at the offset equal to
    that length is where the terminator goes. *)
Lemma byte_at_message_length_overwritten :
  ¬ (∀ (a b : Z) (p : ptr) (w w' : world nat) (r : Z) (i : nat),
       dyloading_add a b p w = Some (r, w') →
       length (message a b r) ≤ i →
       load_byte (mem w') (ptr_add p i) = load_byte (mem w) (ptr_add p i)).
Proof.
  intros H.
  specialize (H 0%Z 0%Z sample_ptr w_filled w_filled_after 0%Z 45
                ltac:(vm_compute; reflexivity) ltac:(vm_compute; lia)).
  vm_compute in H. discriminate H.
Qed.

(** C8 as stated: the call's effect on standard output is one line, and
    everything but that line and the buffer is unchanged.  On a label of
    two lines the rest is unchanged but two lines are written. *)
Lemma one_line_side_effect_fails :
  ¬ (∀ (a b : Z) (p : ptr) (w w' : world nat) (r : Z),
       dyloading_add a b p w = Some (r, w') →
       env w' = env w
       ∧ count_lines (written w w') = 1
       ∧ ∀ q, ptr_block q ≠ ptr_block p
              ∨ ptr_ofs q < ptr_ofs p
              ∨ ptr_ofs p + length (message a b r) < ptr_ofs q →
              load_byte (mem w') q = load_byte (mem w) q).
Proof.
  intros H.
  destruct (H 2%Z 3%Z sample_ptr w_two_lines w_two_lines_after 5%Z
              ltac:(vm_compute; reflexivity)) as (_ & Hone & _).
  vm_compute in Hone. discriminate Hone.
Qed.

(** ** The theorems at the sample callers *)

Ltac int32 := apply in_rangeb_spec; reflexivity.

Ltac ready :=
  eexists _, _;
  split; [vm_compute; reflexivity |];
  split; [vm_compute; reflexivity | vm_compute; lia].

Ltac called := vm_compute; reflexivity.

Lemma dyloading_add_returns_sum_witness :
  Int32.in_range 2 ∧ Int32.in_range 3 ∧ Int32.in_range (2 + 3)
  ∧ (∀ r w', dyloading_add 2 3 sample_ptr w_rust = Some (r, w') → r = (2 + 3)%Z)
  ∧ ∃ w', dyloading_add 2 3 sample_ptr w_rust = Some ((2 + 3)%Z, w').
Proof.
  assert (H2 : Int32.in_range 2) by int32.
  assert (H3 : Int32.in_range 3) by int32.
  assert (H5 : Int32.in_range (2 + 3)) by int32.
  assert (Hb : buffer_ready max_message_size sample_ptr (mem w_rust)) by ready.
  repeat (split; [assumption |]).
  destruct (dyloading_add_returns_sum 2 3 sample_ptr w_rust H2 H3 H5) as [Hret Hdef].
  split; [exact Hret | exact (Hdef Hb)].
Defined.

Lemma dyloading_add_buffer_text_witness :
  Int32.in_range (-7) ∧ Int32.in_range 2 ∧ Int32.in_range (-7 + 2)
  ∧ ∃ ta tb tsum,
      decimal_text (-7) ta ∧ decimal_text 2 tb ∧ decimal_text (-7 + 2) tsum
      ∧ (∀ r w', dyloading_add (-7) 2 sample_ptr w_rust = Some (r, w') →
           load_cstring (mem w') sample_ptr
           = Some (lit "[External dyloading] The result (" ++ ta ++ lit " + " ++ tb
                     ++ lit ") is " ++ tsum ++ lit "!"))
      ∧ ∃ w', dyloading_add (-7) 2 sample_ptr w_rust = Some ((-7 + 2)%Z, w').
Proof.
  assert (H7 : Int32.in_range (-7)) by int32.
  assert (H2 : Int32.in_range 2) by int32.
  assert (H5 : Int32.in_range (-7 + 2)) by int32.
  assert (Hb : buffer_ready max_message_size sample_ptr (mem w_rust)) by ready.
  repeat (split; [assumption |]).
  destruct (dyloading_add_buffer_text (-7) 2 sample_ptr w_rust H7 H2 H5)
    as (ta & tb & tsum & Ha & Hb' & Hs & Hread & Hdef).
  exists ta, tb, tsum. repeat (split; [assumption |]). exact (Hdef Hb).
Defined.

Lemma hello_line_written_witness :
  dyloading_add 2 3 sample_ptr w_two_lines = Some (5%Z, w_two_lines_after)
  ∧ ∃ label,
      load_cstring (mem w_two_lines) sample_ptr = Some label
      ∧ stdout w_two_lines_after
        = stdout w_two_lines ++ lit "[External dyloading] Hello " ++ label ++ [newline]
      ∧ count_lines (written w_two_lines w_two_lines_after) = 1 + count_lines label
      ∧ (Forall (λ c, c ≠ newline) label
         → count_lines (written w_two_lines w_two_lines_after) = 1).
Proof.
  assert (Hc : dyloading_add 2 3 sample_ptr w_two_lines
               = Some (5%Z, w_two_lines_after)) by called.
  split; [exact Hc |].
  exact (hello_line_written 2 3 sample_ptr w_two_lines 5 w_two_lines_after Hc).
Defined.

Lemma concrete_scenarios_witness :
  buffer_ready 48 sample_ptr (mem w_rust)
  ∧ (∃ w', dyloading_add 2 3 sample_ptr w_rust = Some (5%Z, w')
           ∧ load_cstring (mem w') sample_ptr
             = Some (lit "[External dyloading] The result (2 + 3) is 5!"))
  ∧ (∃ w', dyloading_add (-7) 2 sample_ptr w_rust = Some ((-5)%Z, w')
           ∧ load_cstring (mem w') sample_ptr
             = Some (lit "[External dyloading] The result (-7 + 2) is -5!"))
  ∧ (∃ w', dyloading_add 0 0 sample_ptr w_rust = Some (0%Z, w')
           ∧ load_cstring (mem w') sample_ptr
             = Some (lit "[External dyloading] The result (0 + 0) is 0!")).
Proof.
  assert (Hb : buffer_ready 48 sample_ptr (mem w_rust)) by ready.
  split; [exact Hb |].
  exact (concrete_scenarios sample_ptr w_rust Hb).
Defined.

Lemma sum_wraps_around_witness :
  Int32.in_range 2147483647 ∧ Int32.in_range 1
  ∧ (∀ r w', dyloading_add 2147483647 1 sample_ptr w_rust = Some (r, w') →
       Int32.in_range r
       ∧ (∃ k : Z, r = (2147483647 + 1 + k * 2 ^ 32)%Z)
       ∧ ∃ ta tb tsum,
           decimal_text 2147483647 ta ∧ decimal_text 1 tb ∧ decimal_text r tsum
           ∧ load_cstring (mem w') sample_ptr
             = Some (lit "[External dyloading] The result (" ++ ta ++ lit " + "
                       ++ tb ++ lit ") is " ++ tsum ++ lit "!"))
  ∧ ∃ r w', dyloading_add 2147483647 1 sample_ptr w_rust = Some (r, w').
Proof.
  assert (Ha : Int32.in_range 2147483647) by int32.
  assert (H1 : Int32.in_range 1) by int32.
  assert (Hb : buffer_ready max_message_size sample_ptr (mem w_rust)) by ready.
  repeat (split; [assumption |]).
  destruct (sum_wraps_around 2147483647 1 sample_ptr w_rust Ha H1) as [Hret Hdef].
  split; [exact Hret | exact (Hdef Hb)].
Defined.

Lemma dyloading_add_stateless_witness :
  mem w_rust !! ptr_block sample_ptr = mem w_rust_again !! ptr_block sample_ptr
  ∧ match dyloading_add 2 3 sample_ptr w_rust,
          dyloading_add 2 3 sample_ptr w_rust_again with
    | Some (r1, w1'), Some (r2, w2') =>
        r1 = r2
        ∧ mem w1' !! ptr_block sample_ptr = mem w2' !! ptr_block sample_ptr
        ∧ written w_rust w1' = written w_rust_again w2'
    | None, None => True
    | _, _ => False
    end.
Proof.
  assert (Hm : mem w_rust !! ptr_block sample_ptr
               = mem w_rust_again !! ptr_block sample_ptr) by called.
  split; [exact Hm |].
  exact (dyloading_add_stateless 2 3 sample_ptr w_rust w_rust_again Hm).
Defined.

Lemma dyloading_add_no_error_witness :
  Int32.in_range (-2147483648) ∧ Int32.in_range (-1)
  ∧ buffer_ready max_message_size sample_ptr (mem w_rust)
  ∧ (∃ w', dyloading_add (-2147483648) (-1) sample_ptr w_rust
           = Some (Int32.add (-2147483648) (-1), w')
           ∧ Int32.in_range (Int32.add (-2147483648) (-1)))
  ∧ ∀ v, Int32.in_range v → ∃ w', dyloading_add v 0 sample_ptr w_rust = Some (v, w').
Proof.
  assert (Ha : Int32.in_range (-2147483648)) by int32.
  assert (H1 : Int32.in_range (-1)) by int32.
  assert (Hb : buffer_ready max_message_size sample_ptr (mem w_rust)) by ready.
  repeat (split; [assumption |]).
  exact (dyloading_add_no_error (-2147483648) (-1) sample_ptr w_rust Ha H1 Hb).
Defined.

Lemma dyloading_add_frame_witness :
  dyloading_add 2 3 sample_ptr w_two_lines = Some (5%Z, w_two_lines_after)
  ∧ env w_two_lines_after = env w_two_lines
  ∧ (∃ label,
       load_cstring (mem w_two_lines) sample_ptr = Some label
       ∧ stdout w_two_lines_after
         = stdout w_two_lines ++ lit "[External dyloading] Hello " ++ label
             ++ [newline]
       ∧ count_lines (written w_two_lines w_two_lines_after)
         = 1 + count_lines label)
  ∧ dom (mem w_two_lines_after) = dom (mem w_two_lines)
  ∧ (∀ blk, length <$> mem w_two_lines_after !! blk
            = length <$> mem w_two_lines !! blk)
  ∧ ∀ q, ptr_block q ≠ ptr_block sample_ptr
         ∨ ptr_ofs q < ptr_ofs sample_ptr
         ∨ ptr_ofs sample_ptr + length (message 2 3 5) < ptr_ofs q →
         load_byte (mem w_two_lines_after) q = load_byte (mem w_two_lines) q.
Proof.
  assert (Hc : dyloading_add 2 3 sample_ptr w_two_lines
               = Some (5%Z, w_two_lines_after)) by called.
  split; [exact Hc |].
  exact (dyloading_add_frame 2 3 sample_ptr w_two_lines 5 w_two_lines_after Hc).
Defined.

Lemma buffer_tail_preserved_witness :
  dyloading_add 0 0 sample_ptr w_filled = Some (0%Z, w_filled_after)
  ∧ (∀ i, length (message 0 0 0) < i →
          load_byte (mem w_filled_after) (ptr_add sample_ptr i)
          = load_byte (mem w_filled) (ptr_add sample_ptr i))
  ∧ load_byte (mem w_filled_after) (ptr_add sample_ptr (length (message 0 0 0)))
    = Some NUL.
Proof.
  assert (Hc : dyloading_add 0 0 sample_ptr w_filled = Some (0%Z, w_filled_after))
    by called.
  split; [exact Hc |].
  exact (buffer_tail_preserved 0 0 sample_ptr w_filled 0 w_filled_after Hc).
Defined.

Lemma message_fits_76_bytes_witness :
  Int32.in_range widest_operand
  ∧ buffer_ready 76 sample_ptr (mem w_rust)
  ∧ ∃ w' msg,
      dyloading_add widest_operand widest_operand sample_ptr w_rust
      = Some (Int32.add widest_operand widest_operand, w')
      ∧ msg = message widest_operand widest_operand
                (Int32.add widest_operand widest_operand)
      ∧ length msg
        = 42 + length (format_d widest_operand) + length (format_d widest_operand)
            + length (format_d (Int32.add widest_operand widest_operand))
      ∧ length (format_d widest_operand) ≤ 11
      ∧ length (format_d widest_operand) ≤ 11
      ∧ length (format_d (Int32.add widest_operand widest_operand)) ≤ 11
      ∧ length (msg ++ [NUL]) ≤ 76
      ∧ Forall (λ c, c ≠ NUL) msg
      ∧ (∀ i, i < length (msg ++ [NUL]) →
              load_byte (mem w') (ptr_add sample_ptr i) = (msg ++ [NUL]) !! i)
      ∧ load_cstring (mem w') sample_ptr = Some msg
      ∧ (∀ blk, length <$> mem w' !! blk = length <$> mem w_rust !! blk)
      ∧ ∀ q, ptr_block q ≠ ptr_block sample_ptr
             ∨ ptr_ofs q < ptr_ofs sample_ptr
             ∨ ptr_ofs sample_ptr + 76 ≤ ptr_ofs q →
             load_byte (mem w') q = load_byte (mem w_rust) q.
Proof.
  assert (Ha : Int32.in_range widest_operand) by int32.
  assert (Hb : buffer_ready 76 sample_ptr (mem w_rust)) by ready.
  repeat (split; [assumption |]).
  exact (message_fits_76_bytes widest_operand widest_operand sample_ptr w_rust Ha Ha Hb).
Defined.

(** * Further properties of the call *)

(** ** Blocks and texts *)

Lemma overwrite_twice (blk bs : list byte) (i : nat) :
  i + length bs ≤ length blk →
  overwrite (overwrite blk i bs) i bs = overwrite blk i bs.
Proof.
  intros Hroom.
  pose proof (length_overwrite blk i bs Hroom) as Hlen.
  apply list_eq. intros j.
  destruct (decide (j < i)) as [Hlt | Hge].
  - rewrite lookup_overwrite_lt by lia. reflexivity.
  - destruct (decide (j < i + length bs)) as [Hin | Hout].
    + replace j with (i + (j - i)) by lia.
      rewrite !lookup_overwrite_in by lia. reflexivity.
    + rewrite lookup_overwrite_ge by lia. reflexivity.
Qed.

Lemma cstr_overwrite (blk msg : list byte) (i : nat) :
  i ≤ length blk → Forall (λ c, c ≠ NUL) msg →
  cstr (drop i (overwrite blk i (msg ++ [NUL]))) = Some msg.
Proof.
  intros Hi Hmsg. rewrite drop_overwrite by exact Hi.
  rewrite <- app_assoc. apply cstr_app_NUL. exact Hmsg.
Qed.

(** The characters of [%d] are the minus sign and the digits. *)
Lemma format_d_chars (z : Z) :
  Forall (λ c, c = minus_sign ∨ is_digit c = true) (format_d z).
Proof.
  destruct (format_d_decimal_text z) as (ds & -> & _ & Hdig & _).
  apply Forall_app. split.
  - destruct (z <? 0)%Z; repeat constructor.
  - eapply Forall_impl; [exact Hdig |]. intros c Hc. right. exact Hc.
Qed.

Lemma format_d_nonempty (z : Z) : 1 ≤ length (format_d z).
Proof.
  destruct (format_d_decimal_text z) as (ds & -> & Hne & _).
  rewrite length_app. destruct ds; [congruence | simpl; lia].
Qed.

Lemma format_d_inj (z z' : Z) : format_d z = format_d z' → z = z'.
Proof.
  intros Heq.
  destruct (format_d_decimal_text z) as (ds & Hs & Hne & Hdig & _ & Hval).
  destruct (format_d_decimal_text z') as (ds' & Hs' & Hne' & Hdig' & _ & Hval').
  rewrite Heq in Hs. rewrite Hs' in Hs. clear Heq Hs'.
  assert (Hhead : ∀ l : list byte, l ≠ [] → Forall (λ c, is_digit c = true) l →
                  ∀ l', l ≠ minus_sign :: l').
  { intros l Hl Hall l' ->. apply Forall_cons in Hall as [Hc _]. discriminate Hc. }
  destruct (Z.ltb_spec z 0), (Z.ltb_spec z' 0); simpl in Hs.
  - injection Hs as ->. lia.
  - exfalso. exact (Hhead ds' Hne' Hdig' ds Hs).
  - exfalso. symmetry in Hs. exact (Hhead ds Hne Hdig ds' Hs).
  - subst ds'. lia.
Qed.

(** A text ends at the first occurrence of a character it does not hold. *)
Lemma split_at_delimiter (c : byte) (l1 l2 r1 r2 : list byte) :
  Forall (λ x, x ≠ c) l1 → Forall (λ x, x ≠ c) l2 →
  l1 ++ c :: r1 = l2 ++ c :: r2 → l1 = l2 ∧ r1 = r2.
Proof.
  intros H1. revert l2. induction H1 as [| x l1 Hx _ IH]; intros l2 H2 Heq.
  - destruct H2 as [| y l2 Hy _]; simpl in Heq.
    + injection Heq as ->. split; reflexivity.
    + injection Heq as Hc _. congruence.
  - destruct H2 as [| y l2 Hy H2]; simpl in Heq.
    + injection Heq as Hc _. congruence.
    + injection Heq as -> Heq. destruct (IH l2 H2 Heq) as [-> ->].
      split; reflexivity.
Qed.

Lemma format_d_without (c : byte) (z : Z) :
  c ≠ minus_sign → is_digit c = false → Forall (λ x, x ≠ c) (format_d z).
Proof.
  intros Hm Hd. eapply Forall_impl; [apply format_d_chars |].
  intros x [Hx | Hx] Hc; congruence.
Qed.

Lemma message_inj (a b s a' b' s' : Z) :
  message a b s = message a' b' s' → a = a' ∧ b = b' ∧ s = s'.
Proof.
  unfold message, message_of. intros Heq.
  apply app_inv_head in Heq.
  apply (split_at_delimiter x20) in Heq as [Ha Heq];
    [| apply format_d_without; [discriminate | reflexivity]..].
  injection Heq as Heq.
  apply (split_at_delimiter x29) in Heq as [Hb Heq];
    [| apply format_d_without; [discriminate | reflexivity]..].
  injection Heq as Heq.
  apply (split_at_delimiter x21) in Heq as [Hs _];
    [| apply format_d_without; [discriminate | reflexivity]..].
  split; [| split]; apply format_d_inj; assumption.
Qed.

Lemma message_min_length (a b s : Z) : 45 ≤ length (message a b s).
Proof.
  unfold message. rewrite length_message_of.
  pose proof (format_d_nonempty a). pose proof (format_d_nonempty b).
  pose proof (format_d_nonempty s). lia.
Qed.

(** ** Calls and their sequences *)
Section Further.
Context {Env : Type}.
Implicit Types (w : world Env) (p : ptr) (a b r : Z).

(** A buffer that was ready for a call is as ready after it: the block
    keeps its size and holds a terminated string again. *)
Lemma buffer_ready_after_call a b p w r w' (n : nat) :
  dyloading_add a b p w = Some (r, w') →
  buffer_ready n p (mem w) → buffer_ready n p (mem w').
Proof.
  intros Hcall (blk0 & label0 & Hblk0 & _ & Hn).
  destruct (dyloading_add_inv _ _ _ _ _ _ Hcall)
    as (blk & label & Hblk & _ & Hroom & _ & ->).
  assert (blk0 = blk) by congruence. subst blk0.
  exists (overwrite blk (ptr_ofs p) (message a b r ++ [NUL])), (message a b r).
  cbn [mem]. split; [apply lookup_insert_eq |]. split.
  - apply cstr_overwrite; [lia | apply message_no_NUL].
  - rewrite length_overwrite by exact Hroom. exact Hn.
Qed.

Lemma block_after_call a b p w r w' :
  dyloading_add a b p w = Some (r, w') →
  ∃ blk,
    mem w !! ptr_block p = Some blk
    ∧ ptr_ofs p + length (message a b r ++ [NUL]) ≤ length blk
    ∧ mem w' !! ptr_block p
      = Some (overwrite blk (ptr_ofs p) (message a b r ++ [NUL])).
Proof.
  intros Hcall.
  destruct (dyloading_add_inv _ _ _ _ _ _ Hcall)
    as (blk & label & Hblk & _ & Hroom & _ & ->).
  exists blk. split; [exact Hblk |]. split; [exact Hroom |].
  apply lookup_insert_eq.
Qed.

Lemma output_after_call a b p w r w' :
  dyloading_add a b p w = Some (r, w') →
  ∃ label,
    load_cstring (mem w) p = Some label
    ∧ stdout w' = stdout w ++ hello_line label
    ∧ env w' = env w.
Proof.
  intros Hcall.
  destruct (dyloading_add_inv _ _ _ _ _ _ Hcall)
    as (blk & label & Hblk & Hlabel & _ & _ & ->).
  exists label. split; [| split; reflexivity].
  unfold load_cstring. rewrite Hblk. exact Hlabel.
Qed.

(** X2. Whatever the operands, the message and its terminator take at
    least 46 bytes: a call on a block with fewer than 46 bytes from
    [result] on has no result. *)
Theorem undersized_buffer_undefined a b p w (blk : list byte) :
  mem w !! ptr_block p = Some blk →
  length blk < ptr_ofs p + 46 →
  dyloading_add a b p w = None.
Proof.
  intros Hblk Hsmall.
  destruct (dyloading_add a b p w) as [[r w'] |] eqn:Hcall; [| reflexivity].
  exfalso.
  destruct (dyloading_add_inv _ _ _ _ _ _ Hcall)
    as (blk' & label & Hblk' & _ & Hroom & _ & _).
  assert (blk' = blk) by congruence. subst blk'.
  rewrite length_app in Hroom. cbn [length] in Hroom.
  pose proof (message_min_length a b r). lia.
Qed.

(** X3. Two calls in a row on the same buffer, which the caller does not
    reset: both return their sums, the second call's line on standard
    output echoes the message of the first, and the buffer ends with the
    message of the second. *)
Theorem calls_in_sequence a1 b1 a2 b2 p w :
  Int32.in_range a1 → Int32.in_range b1 →
  Int32.in_range a2 → Int32.in_range b2 →
  buffer_ready max_message_size p (mem w) →
  ∃ label w1 w2,
    load_cstring (mem w) p = Some label
    ∧ dyloading_add a1 b1 p w = Some (Int32.add a1 b1, w1)
    ∧ dyloading_add a2 b2 p w1 = Some (Int32.add a2 b2, w2)
    ∧ stdout w2
      = stdout w ++ hello_line label
          ++ hello_line (message a1 b1 (Int32.add a1 b1))
    ∧ load_cstring (mem w2) p = Some (message a2 b2 (Int32.add a2 b2)).
Proof.
  intros Ha1 Hb1 Ha2 Hb2 Hready.
  assert (∃ w1, dyloading_add a1 b1 p w = Some (Int32.add a1 b1, w1))
    as [w1 Hcall1].
  { destruct (dyloading_add_defined a1 b1 p w Ha1 Hb1 Hready)
      as (? & ? & _ & _ & _ & Hcall). eexists. exact Hcall. }
  pose proof (buffer_ready_after_call _ _ _ _ _ _ _ Hcall1 Hready) as Hready1.
  assert (∃ w2, dyloading_add a2 b2 p w1 = Some (Int32.add a2 b2, w2))
    as [w2 Hcall2].
  { destruct (dyloading_add_defined a2 b2 p w1 Ha2 Hb2 Hready1)
      as (? & ? & _ & _ & _ & Hcall). eexists. exact Hcall. }
  destruct (output_after_call _ _ _ _ _ _ Hcall1) as (label & Hlabel & Hout1 & _).
  destruct (output_after_call _ _ _ _ _ _ Hcall2) as (label2 & Hlabel2 & Hout2 & _).
  destruct (buffer_after_call _ _ _ _ _ _ Hcall1) as [_ Hread1].
  destruct (buffer_after_call _ _ _ _ _ _ Hcall2) as [_ Hread2].
  assert (label2 = message a1 b1 (Int32.add a1 b1)) by congruence. subst label2.
  exists label, w1, w2.
  split; [exact Hlabel |]. split; [exact Hcall1 |]. split; [exact Hcall2 |].
  split; [| exact Hread2].
  rewrite Hout2, Hout1, <- app_assoc. reflexivity.
Qed.

(** X4. Calling again with the same operands, without resetting the
    buffer, always has a result: it returns the same value, leaves memory
    and the rest of the state exactly as the first call left them, and
    adds to standard output a line that echoes the message. *)
Theorem repeated_call_keeps_memory a b p w r w1 :
  dyloading_add a b p w = Some (r, w1) →
  ∃ w2,
    dyloading_add a b p w1 = Some (r, w2)
    ∧ mem w2 = mem w1
    ∧ env w2 = env w1
    ∧ stdout w2 = stdout w1 ++ hello_line (message a b r).
Proof.
  intros Hcall.
  destruct (buffer_after_call _ _ _ _ _ _ Hcall) as [Hr Hread].
  destruct (block_after_call _ _ _ _ _ _ Hcall) as (blk & Hblk & Hroom & Hblk1).
  destruct (output_after_call _ _ _ _ _ _ Hcall) as (label & Hlabel & _ & _).
  assert (Hready : buffer_ready (length (message a b r ++ [NUL])) p (mem w)).
  { unfold load_cstring in Hlabel. rewrite Hblk in Hlabel.
    exists blk, label. split; [exact Hblk |]. split; [exact Hlabel | exact Hroom]. }
  pose proof (buffer_ready_after_call _ _ _ _ _ _ _ Hcall Hready) as Hready1.
  rewrite Hr in Hroom, Hblk1, Hread, Hready1.
  destruct (dyloading_add_room a b p w1 _ (le_n _) Hready1)
    as (blk2 & label2 & Hblk2 & Hlabel2 & _ & Hcall2).
  assert (blk2 = overwrite blk (ptr_ofs p) (message a b (Int32.add a b) ++ [NUL]))
    by congruence.
  subst blk2.
  assert (Hl2 : load_cstring (mem w1) p = Some label2).
  { unfold load_cstring. rewrite Hblk2. exact Hlabel2. }
  assert (label2 = message a b (Int32.add a b)) by congruence. subst label2.
  rewrite overwrite_twice in Hcall2 by exact Hroom.
  rewrite (insert_id _ _ _ Hblk1) in Hcall2.
  rewrite Hr. eexists. split; [exact Hcall2 |].
  repeat split.
Qed.

(** X5. The text left in the buffer determines the operands: two calls,
    from any states and on any buffers, that leave the same string had the
    same [a], the same [b], and returned the same value. *)
Theorem buffer_text_determines_operands a b a' b' p p' w w' r r' w1 w1' :
  dyloading_add a b p w = Some (r, w1) →
  dyloading_add a' b' p' w' = Some (r', w1') →
  load_cstring (mem w1) p = load_cstring (mem w1') p' →
  a = a' ∧ b = b' ∧ r = r'.
Proof.
  intros Hcall Hcall' Hsame.
  apply buffer_after_call in Hcall as [_ Hread].
  apply buffer_after_call in Hcall' as [_ Hread'].
  apply message_inj. congruence.
Qed.

(** X6. No overflow is reported, but it shows in the sign: for 32-bit
    operands the value returned is [a + b] exactly when the sum is in
    range; a sum above the range comes back as [a + b - 2^32], negative,
    and a sum below it as [a + b + 2^32], non-negative. *)
Theorem overflow_shows_in_sign a b p w r w' :
  Int32.in_range a → Int32.in_range b →
  dyloading_add a b p w = Some (r, w') →
  (r = (a + b)%Z ↔ Int32.in_range (a + b))
  ∧ (Int32.max_signed < a + b → r = a + b - 2 ^ 32 ∧ r < 0)%Z
  ∧ (a + b < Int32.min_signed → r = a + b + 2 ^ 32 ∧ 0 <= r)%Z.
Proof.
  intros Ha Hb Hcall. apply buffer_after_call in Hcall as [-> _].
  unfold Int32.add.
  pose proof (signed_in_range (a + b)) as Hr.
  destruct (signed_congruent (a + b)) as [k Hk].
  unfold Int32.in_range, Int32.min_signed, Int32.max_signed in *.
  change Int32.half_modulus with 2147483648%Z in *.
  change Int32.modulus with 4294967296%Z in *.
  change (2 ^ 32)%Z with 4294967296%Z.
  rewrite Hk in *. lia.
Qed.


Lemma written_eq w w' (out : list byte) :
  stdout w' = stdout w ++ out → written w w' = out.
Proof. intros Hout. unfold written. rewrite Hout. apply drop_app_length. Qed.

Lemma count_lines_none (l : list byte) :
  Forall (λ c, c ≠ newline) l → count_lines l = 0.
Proof.
  unfold count_lines. induction 1 as [| c l Hc _ IH]; [reflexivity |].
  rewrite filter_cons_False by exact Hc. exact IH.
Qed.

Lemma count_lines_hello (label : list byte) :
  count_lines (hello_line label) = 1 + count_lines label.
Proof.
  unfold count_lines, hello_line. rewrite !filter_app, !length_app.
  change (length (filter (λ c, c = newline) (lit "[External dyloading] Hello ")))
    with 0.
  change (length (filter (λ c, c = newline) [newline])) with 1. lia.
Qed.

Lemma message_no_newline a b r : Forall (λ c, c ≠ newline) (message a b r).
Proof.
  unfold message, message_of.
  repeat (apply Forall_app; split); try apply format_d_no_newline;
    repeat constructor; discriminate.
Qed.

(** X8. On an empty label, a buffer whose first byte at [result] is NUL,
    a call that returns has written the bare prefix and a newline. *)
Theorem empty_label_line a b p w r w' :
  load_byte (mem w) p = Some NUL →
  dyloading_add a b p w = Some (r, w') →
  written w w' = lit "[External dyloading] Hello " ++ [newline].
Proof.
  intros Hnul Hcall.
  destruct (dyloading_add_inv _ _ _ _ _ _ Hcall)
    as (blk & label & Hblk & Hlabel & _ & _ & ->).
  rewrite written_app.
  unfold load_byte in Hnul. rewrite Hblk in Hnul. cbn [mbind option_bind] in Hnul.
  rewrite <- (Nat.add_0_r (ptr_ofs p)), <- lookup_drop in Hnul.
  destruct (drop (ptr_ofs p) blk) as [| c l]; [discriminate |].
  cbn in Hnul. injection Hnul as ->. cbn in Hlabel. injection Hlabel as <-.
  reflexivity.
Qed.

(** X9. A call has no result when [result] does not point at a
    NUL-terminated string: its block does not exist, the offset is past
    the end of the block, or no NUL follows in the block, however large
    the block is. *)
Theorem unterminated_label_undefined a b p w :
  (∀ blk, mem w !! ptr_block p = Some blk →
          Forall (λ c, c ≠ NUL) (drop (ptr_ofs p) blk)) →
  dyloading_add a b p w = None.
Proof.
  intros Hnone.
  destruct (dyloading_add a b p w) as [[r w'] |] eqn:Hcall; [| reflexivity].
  exfalso.
  destruct (dyloading_add_inv _ _ _ _ _ _ Hcall)
    as (blk & label & Hblk & Hlabel & _ & _ & _).
  specialize (Hnone blk Hblk).
  destruct (cstr_Some _ _ Hlabel) as [_ [l' Hsplit]].
  rewrite Hsplit in Hnone. apply Forall_app in Hnone as [_ Hnone].
  apply Forall_cons in Hnone as [Hnul _]. congruence.
Qed.

(** X10. A call never writes a NUL byte to standard output. *)
Theorem no_NUL_on_stdout a b p w r w' :
  dyloading_add a b p w = Some (r, w') →
  Forall (λ c, c ≠ NUL) (written w w').
Proof.
  intros Hcall.
  destruct (dyloading_add_inv _ _ _ _ _ _ Hcall)
    as (blk & label & _ & Hlabel & _ & _ & ->).
  rewrite written_app. unfold hello_line.
  destruct (cstr_Some _ _ Hlabel) as [Hall _].
  apply Forall_app. split; [repeat constructor; discriminate |].
  apply Forall_app. split; [exact Hall | repeat constructor; discriminate].
Qed.

(** X11. A call that follows another call on the same buffer writes
    exactly one line: the message the first call left holds no newline. *)
Theorem following_call_writes_one_line a b a' b' p w r w1 r' w2 :
  dyloading_add a b p w = Some (r, w1) →
  dyloading_add a' b' p w1 = Some (r', w2) →
  written w1 w2 = hello_line (message a b r)
  ∧ count_lines (written w1 w2) = 1.
Proof.
  intros Hcall1 Hcall2.
  destruct (buffer_after_call _ _ _ _ _ _ Hcall1) as [_ Hread1].
  destruct (output_after_call _ _ _ _ _ _ Hcall2) as (label2 & Hlabel2 & Hout2 & _).
  assert (label2 = message a b r) by congruence. subst label2.
  rewrite (written_eq _ _ _ Hout2). split; [reflexivity |].
  rewrite count_lines_hello, count_lines_none; [reflexivity |].
  apply message_no_newline.
Qed.
End Further.

(** ** The further properties at the sample callers *)

Lemma undersized_buffer_undefined_witness :
  mem w_small !! ptr_block sample_ptr = Some (lit "Rust" ++ replicate 41 NUL)
  ∧ length (lit "Rust" ++ replicate 41 NUL) < ptr_ofs sample_ptr + 46
  ∧ dyloading_add 0 0 sample_ptr w_small = None.
Proof.
  assert (Hblk : mem w_small !! ptr_block sample_ptr
                 = Some (lit "Rust" ++ replicate 41 NUL)) by called.
  assert (Hlen : length (lit "Rust" ++ replicate 41 NUL) < ptr_ofs sample_ptr + 46)
    by (vm_compute; lia).
  repeat (split; [assumption |]).
  exact (undersized_buffer_undefined 0 0 sample_ptr w_small _ Hblk Hlen).
Defined.

Lemma calls_in_sequence_witness :
  Int32.in_range 2 ∧ Int32.in_range 3 ∧ Int32.in_range (-7)
  ∧ buffer_ready max_message_size sample_ptr (mem w_rust)
  ∧ ∃ label w1 w2,
      load_cstring (mem w_rust) sample_ptr = Some label
      ∧ dyloading_add 2 3 sample_ptr w_rust = Some (Int32.add 2 3, w1)
      ∧ dyloading_add (-7) 2 sample_ptr w1 = Some (Int32.add (-7) 2, w2)
      ∧ stdout w2
        = stdout w_rust ++ hello_line label
            ++ hello_line (message 2 3 (Int32.add 2 3))
      ∧ load_cstring (mem w2) sample_ptr
        = Some (message (-7) 2 (Int32.add (-7) 2)).
Proof.
  assert (H2 : Int32.in_range 2) by int32.
  assert (H3 : Int32.in_range 3) by int32.
  assert (H7 : Int32.in_range (-7)) by int32.
  assert (Hb : buffer_ready max_message_size sample_ptr (mem w_rust)) by ready.
  repeat (split; [assumption |]).
  exact (calls_in_sequence 2 3 (-7) 2 sample_ptr w_rust H2 H3 H7 H2 Hb).
Defined.

Lemma repeated_call_keeps_memory_witness :
  dyloading_add 2 3 sample_ptr w_rust = Some (5%Z, w_rust_after)
  ∧ ∃ w2,
      dyloading_add 2 3 sample_ptr w_rust_after = Some (5%Z, w2)
      ∧ mem w2 = mem w_rust_after
      ∧ env w2 = env w_rust_after
      ∧ stdout w2 = stdout w_rust_after ++ hello_line (message 2 3 5).
Proof.
  assert (Hc : dyloading_add 2 3 sample_ptr w_rust = Some (5%Z, w_rust_after))
    by called.
  split; [exact Hc |].
  exact (repeated_call_keeps_memory 2 3 sample_ptr w_rust 5 w_rust_after Hc).
Defined.

Lemma buffer_text_determines_operands_witness :
  dyloading_add 2 3 sample_ptr w_rust = Some (5%Z, w_rust_after)
  ∧ dyloading_add 2 3 sample_ptr w_two_lines = Some (5%Z, w_two_lines_after)
  ∧ load_cstring (mem w_rust_after) sample_ptr
    = load_cstring (mem w_two_lines_after) sample_ptr
  ∧ (2 = 2 ∧ 3 = 3 ∧ 5 = 5)%Z.
Proof.
  assert (Hc : dyloading_add 2 3 sample_ptr w_rust = Some (5%Z, w_rust_after))
    by called.
  assert (Hc' : dyloading_add 2 3 sample_ptr w_two_lines
                = Some (5%Z, w_two_lines_after)) by called.
  assert (Hs : load_cstring (mem w_rust_after) sample_ptr
               = load_cstring (mem w_two_lines_after) sample_ptr) by called.
  repeat (split; [assumption |]).
  exact (buffer_text_determines_operands 2 3 2 3 sample_ptr sample_ptr
           w_rust w_two_lines 5 5 w_rust_after w_two_lines_after Hc Hc' Hs).
Defined.

Lemma overflow_shows_in_sign_witness :
  Int32.in_range 2147483647 ∧ Int32.in_range 1
  ∧ dyloading_add 2147483647 1 sample_ptr w_rust
    = Some ((-2147483648)%Z, w_rust_after_max)
  ∧ ((-2147483648 = 2147483647 + 1)%Z ↔ Int32.in_range (2147483647 + 1))
  ∧ (Int32.max_signed < 2147483647 + 1 →
     -2147483648 = 2147483647 + 1 - 2 ^ 32 ∧ -2147483648 < 0)%Z
  ∧ (2147483647 + 1 < Int32.min_signed →
     -2147483648 = 2147483647 + 1 + 2 ^ 32 ∧ 0 <= -2147483648)%Z.
Proof.
  assert (Ha : Int32.in_range 2147483647) by int32.
  assert (H1 : Int32.in_range 1) by int32.
  assert (Hc : dyloading_add 2147483647 1 sample_ptr w_rust
               = Some ((-2147483648)%Z, w_rust_after_max)) by called.
  repeat (split; [assumption |]).
  exact (overflow_shows_in_sign 2147483647 1 sample_ptr w_rust (-2147483648)
           w_rust_after_max Ha H1 Hc).
Defined.


Lemma empty_label_line_witness :
  load_byte (mem w_empty) sample_ptr = Some NUL
  ∧ dyloading_add 2 3 sample_ptr w_empty = Some (5%Z, w_empty_after)
  ∧ written w_empty w_empty_after = lit "[External dyloading] Hello " ++ [newline].
Proof.
  assert (Hn : load_byte (mem w_empty) sample_ptr = Some NUL) by called.
  assert (Hc : dyloading_add 2 3 sample_ptr w_empty = Some (5%Z, w_empty_after))
    by called.
  repeat (split; [assumption |]).
  exact (empty_label_line 2 3 sample_ptr w_empty 5 w_empty_after Hn Hc).
Defined.

Lemma unterminated_label_undefined_witness :
  (∀ blk, mem w_unterminated !! ptr_block sample_ptr = Some blk →
          Forall (λ c, c ≠ NUL) (drop (ptr_ofs sample_ptr) blk))
  ∧ dyloading_add 2 3 sample_ptr w_unterminated = None.
Proof.
  assert (Hn : ∀ blk, mem w_unterminated !! ptr_block sample_ptr = Some blk →
                      Forall (λ c, c ≠ NUL) (drop (ptr_ofs sample_ptr) blk)).
  { intros blk Hblk. vm_compute in Hblk. injection Hblk as <-.
    apply (bool_decide_unpack _). vm_compute. reflexivity. }
  split; [exact Hn |].
  exact (unterminated_label_undefined 2 3 sample_ptr w_unterminated Hn).
Defined.

Lemma no_NUL_on_stdout_witness :
  dyloading_add 2 3 sample_ptr w_rust = Some (5%Z, w_rust_after)
  ∧ Forall (λ c, c ≠ NUL) (written w_rust w_rust_after).
Proof.
  assert (Hc : dyloading_add 2 3 sample_ptr w_rust = Some (5%Z, w_rust_after))
    by called.
  split; [exact Hc |].
  exact (no_NUL_on_stdout 2 3 sample_ptr w_rust 5 w_rust_after Hc).
Defined.

Lemma following_call_writes_one_line_witness :
  dyloading_add 2 3 sample_ptr w_rust = Some (5%Z, w_rust_after)
  ∧ dyloading_add (-7) 2 sample_ptr w_rust_after = Some ((-5)%Z, w_rust_after_two)
  ∧ written w_rust_after w_rust_after_two = hello_line (message 2 3 5)
  ∧ count_lines (written w_rust_after w_rust_after_two) = 1.
Proof.
  assert (H1 : dyloading_add 2 3 sample_ptr w_rust = Some (5%Z, w_rust_after))
    by called.
  assert (H2 : dyloading_add (-7) 2 sample_ptr w_rust_after
               = Some ((-5)%Z, w_rust_after_two)) by called.
  repeat (split; [assumption |]).
  exact (following_call_writes_one_line 2 3 (-7) 2 sample_ptr w_rust 5
           w_rust_after (-5) w_rust_after_two H1 H2).
Defined.
